(** * dynamic_bitset: a byte-backed, resizable bit set

    Shallow embedding of [src/dynamic_bitset.hh] and the properties of its
    member functions.

    Conventions of the embedding.
    - [size_t] values are [N].  No [size_t] expression of the class can wrap:
      [nbits - 8] is guarded by [nbits >= 8], [_num_bits - i - 1] by
      [i < _num_bits], and [i++] stays below [_num_bits].
    - [uint8_t] and [uint32_t] values are [Z], and every conversion to one of
      these types is written out as a reduction modulo [2^8] or [2^32].
    - [std::vector<uint8_t>] is [list Z]; [std::vector::resize] is stdpp's
      [resize] (keep a prefix, pad with the value-initialised element [0]).
    - [_data[i]] is unchecked in the source: for [i >= _data.size()] the
      access is outside the vector and has no defined behaviour.  The source
      has no check and raises no error there.  The embedding only marks
      such an access: the member function's outcome is then
      [Fail IndexOutOfRange], which records that the function indexed
      outside the storage and stands for no value or state of the source.
      Statements about the code are made where the outcome is [Done], or say
      that a call indexes outside the storage.
    - Member functions are computations in a state-and-error monad over the
      object's two fields. *)

From Stdlib Require Import Ascii String.
From stdpp Require Import base numbers list strings.

Module DynamicBitset.

Open Scope Z_scope.

(** [lia] reasons about division and remainder by constants. *)
#[local] Ltac Zify.zify_post_hook ::= Z.to_euclidean_division_equations.

(** ** Fixed-width integers *)

Definition to_uint8 (z : Z) : Z := z mod 2 ^ 8.
Definition to_uint32 (z : Z) : Z := z mod 2 ^ 32.

(** ** The object and the monad of its member functions *)

Record dynamic_bitset : Type := Build {
  _num_bits : N;          (* size_t _num_bits{0}; *)
  _data : list Z          (* std::vector<uint8_t> _data; *)
}.

(** The one marker of the embedding: an index outside [_data]. *)
Inductive error : Type := IndexOutOfRange.

Inductive outcome (A : Type) : Type :=
| Done (a : A)
| Fail (e : error).
Arguments Done {A} a.
Arguments Fail {A} e.

Definition M (A : Type) : Type := dynamic_bitset -> outcome A * dynamic_bitset.

Definition ret {A} (a : A) : M A := fun s => (Done a, s).

Definition bind {A B} (m : M A) (k : A -> M B) : M B :=
  fun s =>
    match m s with
    | (Done a, s') => k a s'
    | (Fail e, s') => (Fail e, s')
    end.

Declare Scope bitset_scope.
Delimit Scope bitset_scope with bitset.
Bind Scope bitset_scope with M.
Notation "'let*' x ':=' m 'in' k" := (bind m (fun x => k))
  (at level 10, x name, m at level 100, k at level 200) : bitset_scope.
Notation "m ;; k" := (bind m (fun _ => k))
  (at level 100, k at level 200, right associativity) : bitset_scope.
Open Scope bitset_scope.

(** Field accesses. *)

Definition read_num_bits : M N := fun s => (Done (_num_bits s), s).

Definition write_num_bits (n : N) : M unit :=
  fun s => (Done tt, Build n (_data s)).

Definition data_size : M N := fun s => (Done (N.of_nat (length (_data s))), s).

(** [_data.resize(n)] *)
Definition data_resize (n : N) : M unit :=
  fun s => (Done tt, Build (_num_bits s) (list.resize (N.to_nat n) 0 (_data s))).

(** [std::fill_n(_data.begin(), n, x)] for [n <= _data.size()] *)
Definition data_fill_n (n : N) (x : Z) : M unit :=
  fun s => (Done tt, Build (_num_bits s)
                       (replicate (N.to_nat n) x ++ drop (N.to_nat n) (_data s))).

(** reading [_data[i]]; the source reads unchecked, and [i] outside the
    vector is given the marker *)
Definition data_at (i : N) : M Z :=
  fun s =>
    match _data s !! N.to_nat i with
    | Some d => (Done d, s)
    | None => (Fail IndexOutOfRange, s)
    end.

(** [_data[i] = x]; the source writes unchecked, and [i] outside the vector
    is given the marker, with no state of the source attached to it *)
Definition data_store (i : N) (x : Z) : M unit :=
  fun s =>
    match _data s !! N.to_nat i with
    | Some _ => (Done tt, Build (_num_bits s) (<[N.to_nat i := x]> (_data s)))
    | None => (Fail IndexOutOfRange, s)
    end.

(** [for (size_t i = 0; i < n; i++) acc = body(i, acc);] -- the loop test
    holds for exactly the [n] values [0, 1, ..., n-1] of [i], so the loop is
    a recursion on its trip count. *)
Fixpoint for_loop {A} (trip : nat) (i : N) (body : N -> A -> M A) (acc : A) : M A :=
  match trip with
  | O => ret acc
  | S k => let* acc' := body i acc in for_loop k (N.succ i) body acc'
  end.

(** ** Member functions *)

(** The word count computed by the constructor and by [resize]. *)
Definition num_words (nbits : N) : N :=
  if (nbits <? 8)%N then 1%N else (1 + (nbits - 8) / 8)%N.

(** [dynamic_bitset() = default]: the member initialisers alone. *)
Definition default_bitset : dynamic_bitset := Build 0 [].

(** body of [explicit dynamic_bitset(size_t nbits)] *)
Definition ctor (nbits : N) : M unit :=
  write_num_bits nbits ;;
  data_resize (num_words nbits) ;;
  let* sz := data_size in
  data_fill_n sz 0.

Definition construct (nbits : N) : dynamic_bitset := snd (ctor nbits default_bitset).

Definition resize (nbits : N) : M unit :=
  write_num_bits nbits ;;
  data_resize (num_words nbits).

(** [bool operator[](size_t pos) const] *)
Definition get (pos : N) : M bool :=
  let byte_loc := (pos / 8)%N in
  let offset := Z.of_N (pos mod 8) in
  let* d := data_at byte_loc in
  ret (negb (Z.land (Z.shiftr d offset) 1 =? 0)).

(** body of the loop of [count]: [c] is a [uint32_t], and the statement
    adds 1 to it when [operator[]] reads [true] at [i], 0 otherwise *)
Definition count_body (i : N) (c : Z) : M Z :=
  let* b := get i in
  ret (to_uint32 (c + (if b then 1 else 0))).

Definition count : M Z :=
  let* n := read_num_bits in
  for_loop (N.to_nat n) 0 count_body 0.

Definition reset : M unit :=
  let* sz := data_size in
  data_fill_n sz 0.

Definition set (pos : N) (value : bool) : M unit :=
  let byte_loc := (pos / 8)%N in
  let offset := to_uint8 (Z.of_N (pos mod 8)) in
  let bitfield := to_uint8 (Z.shiftl 1 offset) in
  if value then
    let* d := data_at byte_loc in
    data_store byte_loc (to_uint8 (Z.lor d bitfield))
  else
    let* d := data_at byte_loc in
    data_store byte_loc (to_uint8 (Z.land d (Z.lnot bitfield))).

(** body of the loop of [to_string]: the stream receives the one-character
    string for what [operator[]] reads at [_num_bits - i - 1] *)
Definition to_string_body (i : N) (ss : string) : M string :=
  let* n := read_num_bits in
  let* b := get (n - i - 1)%N in
  ret (ss +:+ (if b then "1" else "0")).

Definition to_string : M string :=
  let* n := read_num_bits in
  for_loop (N.to_nat n) 0 to_string_body "".

(** ** Notions used in the statements *)

(** Byte and bit addressed by a position, and the two byte updates of [set]. *)
Definition byte_index (pos : N) : nat := N.to_nat (pos / 8).
Definition bit_offset (pos : N) : Z := Z.of_N (pos mod 8).

Definition bit_on (d : Z) (pos : N) : Z :=
  to_uint8 (Z.lor d (to_uint8 (Z.shiftl 1 (to_uint8 (bit_offset pos))))).
Definition bit_off (d : Z) (pos : N) : Z :=
  to_uint8 (Z.land d (Z.lnot (to_uint8 (Z.shiftl 1 (to_uint8 (bit_offset pos)))))).

(** The specification's sizing function, as the specification words it:
    [1] if [n < 8], else [1 + floor((n - 8) / 8)]. *)
Definition number_of_bytes_needed (n : Z) : Z :=
  if decide (n < 8) then 1 else 1 + (n - 8) `div` 8.

(** [storage.length == number_of_bytes_needed(bit_count)] *)
Definition invariant (s : dynamic_bitset) : Prop :=
  Z.of_nat (length (_data s)) = number_of_bytes_needed (Z.of_N (_num_bits s)).

(** The mutating member functions, and the states they lead to from either
    constructor. *)
Inductive method : Type :=
| Resize (nbits : N)
| Set_ (pos : N) (value : bool)
| Reset.

Definition call (m : method) : M unit :=
  match m with
  | Resize nbits => resize nbits
  | Set_ pos value => set pos value
  | Reset => reset
  end.

Inductive reachable : dynamic_bitset -> Prop :=
| reachable_default : reachable default_bitset
| reachable_construct nbits : reachable (construct nbits)
| reachable_call m s : reachable s -> reachable (snd (call m s)).

(** Every stored value is a [uint8_t]. *)
Definition bytes_ok (s : dynamic_bitset) : Prop :=
  Forall (fun d => 0 <= d < 2 ^ 8) (_data s).

(** Every logical index lies inside the storage. *)
Definition covered (s : dynamic_bitset) : Prop :=
  forall i : N, (i < _num_bits s)%N -> (byte_index i < length (_data s))%nat.

(** The indices [0, 1, ..., n-1], and how many of them read as [true]. *)
Definition indices_from (i : N) (len : nat) : list N :=
  N.of_nat <$> seq (N.to_nat i) len.

#[global] Instance error_eq_dec : EqDecision error.
Proof. solve_decision. Defined.
#[global] Instance outcome_eq_dec {A} `{EqDecision A} : EqDecision (outcome A).
Proof. solve_decision. Defined.

Definition reads_true (s : dynamic_bitset) (i : N) : Prop :=
  fst (get i s) = Done true.

#[global] Instance reads_true_dec s i : Decision (reads_true s i).
Proof. unfold reads_true. apply _. Defined.

Definition num_true (s : dynamic_bitset) : nat :=
  length (filter (reads_true s) (indices_from 0 (N.to_nat (_num_bits s)))).

(** The character [to_string] emits for a bit. *)
Definition digit (b : bool) : ascii := if b then "1"%char else "0"%char.

(** The number of '1' characters of a string. *)
Fixpoint ones (r : string) : nat :=
  match r with
  | EmptyString => 0%nat
  | String c r' => ((if Ascii.eqb c "1" then 1 else 0) + ones r')%nat
  end.

(** The client program [dynamic_bitset s(n); for (i = 0; i < n; i++)
    s.set(i);] and the object it leaves. *)
Definition set_all (n : N) : M unit :=
  for_loop (N.to_nat n) 0 (fun i _ => set i true) tt.

Definition filled (n : N) : dynamic_bitset := snd (set_all n (construct n)).

(** ** Bit-level facts *)

Section Bits.
Variables (d o : Z).
Hypothesis Ho : 0 <= o < 8.

Lemma to_uint8_offset : to_uint8 o = o.
Proof. unfold to_uint8. apply Z.mod_small. lia. Qed.

Lemma bitfield_pow2 : to_uint8 (Z.shiftl 1 (to_uint8 o)) = 2 ^ o.
Proof.
  rewrite to_uint8_offset, Z.shiftl_1_l. unfold to_uint8.
  apply Z.mod_small. split; [lia|].
  apply Z.pow_lt_mono_r; lia.
Qed.

Lemma shift_mask_testbit :
  negb (Z.land (Z.shiftr d o) 1 =? 0) = Z.testbit d o.
Proof.
  rewrite Z.testbit_odd by lia.
  change 1 with (Z.ones 1). rewrite Z.land_ones by lia.
  rewrite Z.pow_1_r, <- Z.bit0_mod, Z.bit0_odd.
  destruct (Z.odd (Z.shiftr d o)); reflexivity.
Qed.

Lemma testbit_uint8 (x o' : Z) :
  0 <= o' < 8 -> Z.testbit (to_uint8 x) o' = Z.testbit x o'.
Proof. intros. unfold to_uint8. apply Z.mod_pow2_bits_low. lia. Qed.

Lemma testbit_bit_on (o' : Z) :
  0 <= o' < 8 ->
  Z.testbit (to_uint8 (Z.lor d (to_uint8 (Z.shiftl 1 (to_uint8 o))))) o'
  = if decide (o' = o) then true else Z.testbit d o'.
Proof.
  intros Ho'. rewrite testbit_uint8, bitfield_pow2, Z.lor_spec by lia.
  rewrite Z.pow2_bits_eqb by lia.
  case_decide; subst.
  - rewrite Z.eqb_refl. apply orb_true_r.
  - destruct (Z.eqb_spec o o'); [congruence|]. apply orb_false_r.
Qed.

Lemma testbit_bit_off (o' : Z) :
  0 <= o' < 8 ->
  Z.testbit (to_uint8 (Z.land d (Z.lnot (to_uint8 (Z.shiftl 1 (to_uint8 o)))))) o'
  = if decide (o' = o) then false else Z.testbit d o'.
Proof.
  intros Ho'. rewrite testbit_uint8, bitfield_pow2, Z.land_spec by lia.
  rewrite Z.lnot_spec, Z.pow2_bits_eqb by lia.
  case_decide; subst.
  - rewrite Z.eqb_refl. apply andb_false_r.
  - destruct (Z.eqb_spec o o'); [congruence|]. apply andb_true_r.
Qed.
End Bits.

Lemma offset_range (pos : N) : 0 <= Z.of_N (pos mod 8) < 8.
Proof. lia. Qed.

(** ** The member functions as plain case analyses on the byte looked up *)

Lemma get_unfold (pos : N) (s : dynamic_bitset) :
  get pos s =
    match _data s !! byte_index pos with
    | Some d => (Done (Z.testbit d (bit_offset pos)), s)
    | None => (Fail IndexOutOfRange, s)
    end.
Proof.
  unfold get, bind, data_at, ret, byte_index, bit_offset.
  destruct (_data s !! _); [|reflexivity].
  rewrite shift_mask_testbit by apply offset_range. reflexivity.
Qed.

Lemma set_unfold (pos : N) (v : bool) (s : dynamic_bitset) :
  set pos v s =
    match _data s !! byte_index pos with
    | Some d =>
        (Done tt, Build (_num_bits s)
                    (<[byte_index pos := if v then bit_on d pos else bit_off d pos]> (_data s)))
    | None => (Fail IndexOutOfRange, s)
    end.
Proof.
  unfold set, bind, data_at, data_store, byte_index, bit_on, bit_off, bit_offset.
  destruct v; destruct (_data s !! _) eqn:E; simpl; rewrite ?E; reflexivity.
Qed.

Lemma resize_unfold (nbits : N) (s : dynamic_bitset) :
  resize nbits s =
    (Done tt, Build nbits (list.resize (N.to_nat (num_words nbits)) 0 (_data s))).
Proof. reflexivity. Qed.

Lemma reset_unfold (s : dynamic_bitset) :
  reset s = (Done tt, Build (_num_bits s) (replicate (length (_data s)) 0)).
Proof.
  unfold reset, bind, data_size, data_fill_n; simpl.
  rewrite Nat2N.id, drop_all, app_nil_r. reflexivity.
Qed.

Lemma construct_unfold (nbits : N) :
  construct nbits = Build nbits (replicate (N.to_nat (num_words nbits)) 0).
Proof.
  unfold construct, ctor, bind, write_num_bits, data_resize, data_size, data_fill_n,
    default_bitset; simpl.
  rewrite Nat2N.id, drop_all, app_nil_r, length_resize. reflexivity.
Qed.

(** ** Sizing *)

Lemma num_words_spec (nbits : N) :
  Z.of_N (num_words nbits) = number_of_bytes_needed (Z.of_N nbits).
Proof.
  unfold num_words, number_of_bytes_needed.
  destruct (N.ltb_spec nbits 8); case_decide; lia.
Qed.

Lemma num_words_floor (nbits : N) :
  (8 <= nbits)%N -> num_words nbits = (nbits / 8)%N.
Proof.
  intros H. unfold num_words. destruct (N.ltb_spec nbits 8); lia.
Qed.

Lemma construct_length (nbits : N) :
  length (_data (construct nbits)) = N.to_nat (num_words nbits).
Proof. rewrite construct_unfold. simpl. apply length_replicate. Qed.

(** C1 (defect of the code).  The constructor sizes the storage as
    [1 + (nbits - 8) / 8] bytes, that is [nbits / 8] rounded down for
    [nbits >= 8]: 7, 8 and 16 bits get 1, 1 and 2 bytes as the claim says,
    but 9 bits get 1 byte where the claim says 2, and 17 bits get 2 bytes
    where the claim says 3. *)
Theorem construct_sizes :
  length (_data (construct 7)) = 1%nat /\
  length (_data (construct 8)) = 1%nat /\
  length (_data (construct 9)) = 1%nat /\
  length (_data (construct 16)) = 2%nat /\
  length (_data (construct 17)) = 2%nat.
Proof. repeat split; reflexivity. Qed.

(** ** The storage-length invariant *)

Lemma call_length (m : method) (s : dynamic_bitset) :
  (exists nbits, m = Resize nbits) \/
  (_num_bits (snd (call m s)) = _num_bits s /\
   length (_data (snd (call m s))) = length (_data s)).
Proof.
  destruct m as [nbits|pos v|]; unfold call.
  - left. eauto.
  - right. rewrite set_unfold. destruct (_data s !! _); simpl; [|done].
    by rewrite length_insert.
  - right. rewrite reset_unfold. simpl. by rewrite length_replicate.
Qed.

Lemma resize_invariant (nbits : N) (s : dynamic_bitset) :
  invariant (snd (resize nbits s)).
Proof.
  rewrite resize_unfold. unfold invariant. simpl.
  rewrite length_resize, <- num_words_spec. lia.
Qed.

Lemma construct_invariant (nbits : N) : invariant (construct nbits).
Proof.
  unfold invariant. rewrite construct_length, construct_unfold, <- num_words_spec.
  simpl. lia.
Qed.

Lemma empty_storage_default (s : dynamic_bitset) :
  reachable s -> _data s = [] -> s = default_bitset.
Proof.
  induction 1 as [|nbits|m s Hs IH]; intros Hnil.
  - reflexivity.
  - apply (f_equal length) in Hnil. rewrite construct_length in Hnil.
    simpl in Hnil. unfold num_words in Hnil. destruct (nbits <? 8)%N; lia.
  - destruct (call_length m s) as [[nbits ->]|[Hn Hl]].
    + simpl in Hnil. apply (f_equal length) in Hnil.
      rewrite length_resize in Hnil. simpl in Hnil.
      unfold num_words in Hnil. destruct (nbits <? 8)%N; lia.
    + assert (_data s = []) as Hs0.
      { apply length_zero_iff_nil. rewrite <- Hl, Hnil. reflexivity. }
      specialize (IH Hs0). subst s.
      destruct (snd (call m default_bitset)) as [n d]; simpl in *.
      subst. reflexivity.
Qed.

Lemma to_uint8_range (z : Z) : 0 <= to_uint8 z < 2 ^ 8.
Proof. unfold to_uint8. apply Z.mod_pos_bound. reflexivity. Qed.

(** The truncations written out in [set] keep every stored value a
    [uint8_t] in all reachable states. *)
Lemma reachable_bytes_ok (s : dynamic_bitset) : reachable s -> bytes_ok s.
Proof.
  unfold bytes_ok. induction 1 as [|nbits|m s Hs IH].
  - constructor.
  - rewrite construct_unfold. by apply Forall_replicate.
  - destruct m as [nbits|pos v|]; unfold call.
    + rewrite resize_unfold. by apply Forall_resize.
    + rewrite set_unfold. destruct (_data s !! _); [|done].
      apply Forall_insert; [done|]. destruct v; apply to_uint8_range.
    + rewrite reset_unfold. by apply Forall_replicate.
Qed.

(** C2 (as stated, for the default-constructed object): it is a reachable
    state whose storage has length 0, while
    [number_of_bytes_needed 0 = 1]. *)
Lemma invariant_fails_default :
  reachable default_bitset /\ ~ invariant default_bitset.
Proof. split; [constructor|]. unfold invariant. simpl. discriminate. Qed.

(** C2 (amended).  Every state reached from either constructor by [resize],
    [set] and [reset], other than the default-constructed state itself,
    satisfies [storage.length = number_of_bytes_needed(bit_count)]. *)
Theorem reachable_invariant (s : dynamic_bitset) :
  reachable s -> s <> default_bitset -> invariant s.
Proof.
  induction 1 as [|nbits|m s Hs IH]; intros Hne.
  - congruence.
  - apply construct_invariant.
  - destruct (call_length m s) as [[nbits ->]|[Hn Hl]].
    + apply resize_invariant.
    + unfold invariant in *. rewrite Hn, Hl. apply IH.
      intros ->. apply Hne.
      apply empty_storage_default; [by constructor|].
      apply length_zero_iff_nil. rewrite Hl. reflexivity.
Qed.

Lemma reachable_invariant_witness :
  invariant (snd (call (Set_ 2 true) (snd (call (Resize 20) default_bitset)))).
Proof.
  apply reachable_invariant.
  - apply reachable_call, reachable_call, reachable_default.
  - discriminate.
Defined.


(** ** [set] and [operator[]] *)

Lemma position_split (j pos : N) :
  j <> pos -> byte_index j = byte_index pos -> bit_offset j <> bit_offset pos.
Proof. unfold byte_index, bit_offset. lia. Qed.

Lemma testbit_written (d : Z) (pos j : N) (v : bool) :
  Z.testbit (if v then bit_on d pos else bit_off d pos) (bit_offset j)
  = if decide (bit_offset j = bit_offset pos) then v
    else Z.testbit d (bit_offset j).
Proof.
  pose proof (offset_range pos). pose proof (offset_range j).
  destruct v; unfold bit_on, bit_off.
  - rewrite testbit_bit_on by done. reflexivity.
  - rewrite testbit_bit_off by done. reflexivity.
Qed.

Lemma set_in_range (pos : N) (v : bool) (s : dynamic_bitset) (d : Z) :
  _data s !! byte_index pos = Some d ->
  set pos v s =
    (Done tt, Build (_num_bits s)
                (<[byte_index pos := if v then bit_on d pos else bit_off d pos]> (_data s))).
Proof. intros E. rewrite set_unfold, E. reflexivity. Qed.

Lemma get_after_set (pos : N) (v : bool) (s : dynamic_bitset) :
  (byte_index pos < length (_data s))%nat ->
  get pos (snd (set pos v s)) = (Done v, snd (set pos v s)).
Proof.
  intros Hlt. destruct (lookup_lt_is_Some_2 _ _ Hlt) as [d E].
  rewrite (set_in_range _ _ _ _ E), get_unfold. simpl.
  rewrite list_lookup_insert_eq by done.
  rewrite testbit_written. by rewrite decide_True.
Qed.

Lemma get_other_after_set (pos j : N) (v : bool) (s : dynamic_bitset) :
  j <> pos -> fst (get j (snd (set pos v s))) = fst (get j s).
Proof.
  intros Hne. rewrite set_unfold.
  destruct (_data s !! byte_index pos) as [d|] eqn:E; [|reflexivity].
  rewrite !get_unfold. simpl.
  destruct (decide (byte_index j = byte_index pos)) as [Heq|Hbyte].
  - rewrite Heq, E, list_lookup_insert_eq by (by eapply lookup_lt_Some).
    simpl. rewrite testbit_written.
    rewrite decide_False by (by apply position_split). reflexivity.
  - rewrite list_lookup_insert_ne by done. by destruct (_data s !! byte_index j).
Qed.

Lemma set_succeeds (pos : N) (v : bool) (s : dynamic_bitset) :
  (byte_index pos < length (_data s))%nat -> fst (set pos v s) = Done tt.
Proof.
  intros Hlt. destruct (lookup_lt_is_Some_2 _ _ Hlt) as [d E].
  by rewrite (set_in_range _ _ _ _ E).
Qed.

Lemma set_length (pos : N) (v : bool) (s : dynamic_bitset) :
  length (_data (snd (set pos v s))) = length (_data s).
Proof.
  rewrite set_unfold. destruct (_data s !! _); simpl; [|done].
  by rewrite length_insert.
Qed.

(** C3.  For a position whose byte lies inside the storage, [set(pos, true)]
    succeeds and [operator[]] then reads [true] at [pos]; a following
    [set(pos, false)] succeeds and [operator[]] then reads [false]; and
    [set(pos, v)] leaves what [operator[]] reads at every other position
    as it was. *)
Theorem set_get_roundtrip (s : dynamic_bitset) (pos : N) :
  (pos / 8 < N.of_nat (length (_data s)))%N ->
  let s1 := snd (set pos true s) in
  let s2 := snd (set pos false s1) in
  fst (set pos true s) = Done tt /\
  get pos s1 = (Done true, s1) /\
  fst (set pos false s1) = Done tt /\
  get pos s2 = (Done false, s2) /\
  (forall (j : N) (v : bool),
      (j / 8 < N.of_nat (length (_data s)))%N -> j <> pos ->
      fst (get j (snd (set pos v s))) = fst (get j s)).
Proof.
  intros Hpos s1 s2.
  assert (byte_index pos < length (_data s))%nat as Hlt
      by (unfold byte_index; lia).
  assert (byte_index pos < length (_data s1))%nat as Hlt1
      by (subst s1; by rewrite set_length).
  repeat split.
  - by apply set_succeeds.
  - by apply get_after_set.
  - by apply set_succeeds.
  - by apply get_after_set.
  - intros j v _ Hne. by apply get_other_after_set.
Qed.

Lemma set_get_roundtrip_witness :
  let s := construct 16 in
  let s1 := snd (set 11 true s) in
  let s2 := snd (set 11 false s1) in
  fst (set 11 true s) = Done tt /\
  get 11 s1 = (Done true, s1) /\
  fst (set 11 false s1) = Done tt /\
  get 11 s2 = (Done false, s2) /\
  (forall (j : N) (v : bool),
      (j / 8 < N.of_nat (length (_data s)))%N -> j <> 11%N ->
      fst (get j (snd (set 11 v s))) = fst (get j s)).
Proof. apply (set_get_roundtrip (construct 16) 11). vm_compute. reflexivity. Defined.

(** ** Construction *)

Lemma construct_zero_fill (nbits i : N) :
  (byte_index i < length (_data (construct nbits)))%nat ->
  get i (construct nbits) = (Done false, construct nbits).
Proof.
  rewrite get_unfold, construct_unfold. simpl. rewrite length_replicate.
  intros Hlt. rewrite lookup_replicate_2 by done.
  by rewrite Z.bits_0.
Qed.

(** Where the sizing leaves indices outside the storage: a fresh object
    covers all of its [nbits] indices exactly when [nbits < 8] or [nbits] is
    a multiple of 8. *)
Lemma construct_covered (nbits : N) :
  covered (construct nbits) <-> (nbits < 8 \/ nbits mod 8 = 0)%N.
Proof.
  unfold covered. rewrite construct_length, construct_unfold.
  cbn [_num_bits]. unfold byte_index, num_words.
  destruct (N.ltb_spec nbits 8) as [Hlt|Hge]; split.
  - auto.
  - intros _ i Hi. lia.
  - intros Hcov. right.
    specialize (Hcov (nbits - 1)%N ltac:(lia)). lia.
  - intros [?|Hmod] i Hi; lia.
Qed.

(** C5 (defect of the code).  In [construct 9] the storage is one byte, so
    index 8, which is below the bit count 9, addresses byte 1 outside the
    storage: [operator[]] does not return [false] there, it ends with
    [IndexOutOfRange]. *)
Theorem construct_get_out_of_range :
  (8 < _num_bits (construct 9))%N /\
  get 8 (construct 9) = (Fail IndexOutOfRange, construct 9).
Proof. split; reflexivity. Qed.

(** C10.  [construct 0] has bit count 0 and one zero byte of storage, so at
    every position below 8 [operator[]] succeeds and reads [false], and
    [set] succeeds. *)
Theorem construct_zero_one_byte :
  construct 0 = Build 0 [0] /\
  (forall pos : N, (pos < 8)%N ->
     get pos (construct 0) = (Done false, construct 0) /\
     (forall v : bool, fst (set pos v (construct 0)) = Done tt)).
Proof.
  split; [reflexivity|]. intros pos Hpos.
  assert (byte_index pos < length (_data (construct 0)))%nat as Hlt.
  { rewrite construct_length. unfold byte_index.
    change (num_words 0) with 1%N. lia. }
  split.
  - by apply construct_zero_fill.
  - intros v. by apply set_succeeds.
Qed.


(** ** [resize] *)

(** C8.  [resize(nbits)] succeeds, sets the bit count to [nbits] and the
    storage length to [num_words nbits]; every byte whose index is inside
    the storage before and after keeps its value, every added byte is zero,
    and a shrinking resize keeps exactly a prefix of the storage.  After
    [construct 4], [set(2, true)] and [resize(20)], [operator[]] reads
    [true] at index 2. *)
Theorem resize_frame (s : dynamic_bitset) (nbits : N) :
  let s' := snd (resize nbits s) in
  fst (resize nbits s) = Done tt /\
  _num_bits s' = nbits /\
  length (_data s') = N.to_nat (num_words nbits) /\
  (forall i : nat, (i < length (_data s))%nat -> (i < length (_data s'))%nat ->
     _data s' !! i = _data s !! i) /\
  (forall i : nat, (length (_data s) <= i < length (_data s'))%nat ->
     _data s' !! i = Some 0) /\
  ((length (_data s') <= length (_data s))%nat ->
     _data s' = take (length (_data s')) (_data s)) /\
  fst ((set 2 true ;; resize 20 ;; get 2) (construct 4)) = Done true.
Proof.
  intros s'. subst s'. rewrite resize_unfold. simpl.
  rewrite length_resize. repeat split.
  - intros i Hold Hnew. by apply lookup_resize.
  - intros i [Hold Hnew]. by apply lookup_resize_new.
  - intros Hle. by apply resize_le.
Qed.


(** ** Counting *)

Section Filter.
Context {A : Type} (P Q : A -> Prop).
Context `{!forall x, Decision (P x), !forall x, Decision (Q x)}.

Lemma filter_ext_elem (l : list A) :
  (forall x, x ∈ l -> (P x <-> Q x)) -> filter P l = filter Q l.
Proof.
  induction l as [|a l IH]; intros Hl; [done|].
  assert (filter P l = filter Q l) as IH'.
  { apply IH. intros x Hx. apply Hl. by right. }
  destruct (decide (P a)) as [Ha|Ha].
  - rewrite !filter_cons_True; [by f_equal|by apply Hl; [left|]|done].
  - rewrite !filter_cons_False; [done| |done].
    intros HQ. apply Ha, Hl; [left|done].
Qed.

Lemma filter_all_elem (l : list A) :
  (forall x, x ∈ l -> P x) -> filter P l = l.
Proof.
  induction l as [|a l IH]; intros Hl; [done|].
  rewrite filter_cons_True by (apply Hl; left).
  f_equal. apply IH. intros x Hx. apply Hl. by right.
Qed.

Lemma filter_none_elem (l : list A) :
  (forall x, x ∈ l -> ~ P x) -> filter P l = [].
Proof.
  induction l as [|a l IH]; intros Hl; [done|].
  rewrite filter_cons_False by (apply Hl; left).
  apply IH. intros x Hx. apply Hl. by right.
Qed.
End Filter.

Lemma indices_from_succ (i : N) (len : nat) :
  indices_from i (S len) = i :: indices_from (N.succ i) len.
Proof.
  unfold indices_from. rewrite N2Nat.inj_succ. simpl.
  by rewrite N2Nat.id.
Qed.

Lemma elem_of_indices_from (x i : N) (len : nat) :
  x ∈ indices_from i len <-> (i <= x < i + N.of_nat len)%N.
Proof.
  unfold indices_from. rewrite list_elem_of_fmap. split.
  - intros (y & -> & Hy). apply elem_of_seq in Hy. lia.
  - intros Hx. exists (N.to_nat x). split; [by rewrite N2Nat.id|].
    apply elem_of_seq. lia.
Qed.

Lemma length_indices_from (i : N) (len : nat) :
  length (indices_from i len) = len.
Proof. unfold indices_from. by rewrite length_fmap, length_seq. Qed.

Lemma get_in_range (i : N) (s : dynamic_bitset) :
  (byte_index i < length (_data s))%nat ->
  exists b : bool, get i s = (Done b, s).
Proof.
  intros Hlt. destruct (lookup_lt_is_Some_2 _ _ Hlt) as [d E].
  rewrite get_unfold, E. eauto.
Qed.

Lemma to_uint32_range (z : Z) : 0 <= to_uint32 z < 2 ^ 32.
Proof. unfold to_uint32. apply Z.mod_pos_bound. reflexivity. Qed.

Lemma count_loop (s : dynamic_bitset) (trip : nat) :
  forall (i : N) (c : Z),
    0 <= c < 2 ^ 32 ->
    (forall j : N, (i <= j < i + N.of_nat trip)%N ->
                   (byte_index j < length (_data s))%nat) ->
    for_loop trip i count_body c s
    = (Done (to_uint32
               (c + Z.of_nat (length (filter (reads_true s) (indices_from i trip))))),
       s).
Proof.
  induction trip as [|trip IH]; intros i c Hc Hcov.
  - simpl. unfold ret, to_uint32. rewrite Z.add_0_r, Z.mod_small; done.
  - destruct (get_in_range i s) as [b Hb]; [apply Hcov; lia|].
    rewrite indices_from_succ. cbn [for_loop].
    unfold bind at 1. unfold count_body at 1, bind. rewrite Hb. unfold ret at 1.
    rewrite IH; [|apply to_uint32_range|intros j Hj; apply Hcov; lia].
    f_equal. f_equal. unfold to_uint32. rewrite Z.add_mod_idemp_l by done.
    f_equal. destruct b.
    + rewrite filter_cons_True by (unfold reads_true; by rewrite Hb).
      cbn [length]. lia.
    + rewrite filter_cons_False by (unfold reads_true; by rewrite Hb).
      lia.
Qed.

Lemma count_covered (s : dynamic_bitset) :
  covered s -> count s = (Done (to_uint32 (Z.of_nat (num_true s))), s).
Proof.
  intros Hcov. unfold count, bind, read_num_bits.
  rewrite count_loop; [done|done|].
  intros j Hj. apply Hcov. lia.
Qed.

Lemma num_true_le (s : dynamic_bitset) :
  (num_true s <= N.to_nat (_num_bits s))%nat.
Proof.
  unfold num_true. etrans; [apply length_filter|].
  by rewrite length_indices_from.
Qed.

Lemma num_true_ext (s s' : dynamic_bitset) :
  _num_bits s' = _num_bits s ->
  (forall i : N, (i < _num_bits s)%N -> fst (get i s') = fst (get i s)) ->
  num_true s' = num_true s.
Proof.
  intros Hn Hget. unfold num_true. rewrite Hn. f_equal.
  apply filter_ext_elem. intros x Hx. apply elem_of_indices_from in Hx.
  unfold reads_true. rewrite Hget by lia. done.
Qed.

Lemma num_true_all (s : dynamic_bitset) :
  (forall i : N, (i < _num_bits s)%N -> fst (get i s) = Done true) ->
  num_true s = N.to_nat (_num_bits s).
Proof.
  intros Hget. unfold num_true.
  rewrite filter_all_elem, length_indices_from; [done|].
  intros x Hx. apply elem_of_indices_from in Hx. apply Hget. lia.
Qed.

Lemma num_true_none (s : dynamic_bitset) :
  (forall i : N, (i < _num_bits s)%N -> fst (get i s) = Done false) ->
  num_true s = 0%nat.
Proof.
  intros Hget. unfold num_true. rewrite filter_none_elem; [done|].
  intros x Hx. apply elem_of_indices_from in Hx.
  unfold reads_true. rewrite Hget by lia. discriminate.
Qed.

Lemma set_covered (pos : N) (v : bool) (s : dynamic_bitset) :
  covered s -> covered (snd (set pos v s)).
Proof.
  unfold covered. rewrite set_length.
  rewrite set_unfold. by destruct (_data s !! _).
Qed.


Lemma set_all_loop (trip : nat) :
  forall (i : N) (s : dynamic_bitset),
    (forall j : N, (j < i + N.of_nat trip)%N ->
                   (byte_index j < length (_data s))%nat) ->
    let s' := snd (for_loop trip i (fun i _ => set i true) tt s) in
    _num_bits s' = _num_bits s /\
    length (_data s') = length (_data s) /\
    (forall j : N, (i <= j < i + N.of_nat trip)%N -> fst (get j s') = Done true) /\
    (forall j : N, (j < i)%N -> fst (get j s') = fst (get j s)) /\
    (reachable s -> reachable s').
Proof.
  induction trip as [|trip IH]; intros i s Hcov; cbn zeta.
  - cbn [for_loop]. unfold ret. cbn [snd]. repeat split; [lia|done].
  - assert (byte_index i < length (_data s))%nat as Hi by (apply Hcov; lia).
    pose proof (set_succeeds i true s Hi) as Hok.
    pose proof (set_length i true s) as Hlen.
    assert (for_loop (S trip) i (fun i _ => set i true) tt s
            = for_loop trip (N.succ i) (fun i _ => set i true) tt (snd (set i true s)))
      as ->.
    { cbn [for_loop]. unfold bind at 1.
      destruct (set i true s) as [[[]|e] s1]; [done|discriminate]. }
    destruct (IH (N.succ i) (snd (set i true s)))
      as (Hn & Hl & Htrue & Hold & Hreach).
    { intros j Hj. rewrite Hlen. apply Hcov. lia. }
    split; [|split; [|split; [|split]]].
    + rewrite Hn, set_unfold. by destruct (_data s !! _).
    + by rewrite Hl.
    + intros j Hj. destruct (decide (j = i)) as [->|Hne].
      * rewrite Hold by lia. by rewrite get_after_set.
      * apply Htrue. lia.
    + intros j Hj. rewrite Hold by lia. apply get_other_after_set. lia.
    + intros Hs. apply Hreach. apply (reachable_call (Set_ i true) s Hs).
Qed.

(** The object left by [set_all] on a fresh bit set of [n = 8 * k] bits,
    [k >= 1]. *)
Lemma filled_spec (n : N) :
  (8 <= n)%N -> (n mod 8 = 0)%N ->
  reachable (filled n) /\
  invariant (filled n) /\
  covered (filled n) /\
  _num_bits (filled n) = n /\
  Z.of_nat (num_true (filled n)) = Z.of_N n /\
  fst (count (filled n)) = Done (to_uint32 (Z.of_N n)).
Proof.
  intros Hn Hmod.
  assert (length (_data (construct n)) = N.to_nat (n / 8)) as Hlen.
  { by rewrite construct_length, num_words_floor. }
  assert (_num_bits (construct n) = n) as Hbits by (by rewrite construct_unfold).
  destruct (set_all_loop (N.to_nat n) 0 (construct n))
    as (Hn' & Hl & Htrue & _ & Hreach).
  { intros j Hj. rewrite Hlen. unfold byte_index. lia. }
  fold (set_all n) in Hn', Hl, Htrue, Hreach. fold (filled n) in Hn', Hl, Htrue, Hreach.
  rewrite Hbits in Hn'. rewrite Hlen in Hl.
  assert (covered (filled n)) as Hcov.
  { intros j Hj. rewrite Hl. rewrite Hn' in Hj. unfold byte_index. lia. }
  assert (Z.of_nat (num_true (filled n)) = Z.of_N n) as Hnum.
  { rewrite num_true_all; [rewrite Hn'; lia|].
    intros i Hi. apply Htrue. rewrite Hn' in Hi. lia. }
  split; [apply Hreach, reachable_construct|].
  split; [|split; [done|split; [done|split; [done|]]]].
  - unfold invariant. rewrite Hl, Hn', <- num_words_spec, num_words_floor by done.
    lia.
  - rewrite count_covered by done. by rewrite Hnum.
Qed.

(** C4 (as stated, for a bit set of [2^32] bits, all set).  Constructing
    the object with [2^32] bits and setting each of them gives a reachable
    state whose storage covers every index and in which [operator[]] reads
    [true] at each of the [2^32] indices, while the [uint32_t] counter of
    [count] has wrapped to 0. *)
Lemma count_wraps :
  reachable (filled 4294967296) /\
  covered (filled 4294967296) /\
  Z.of_nat (num_true (filled 4294967296)) = 4294967296 /\
  fst (count (filled 4294967296)) = Done 0 /\
  fst (count (filled 4294967296))
    <> Done (Z.of_nat (num_true (filled 4294967296))).
Proof.
  destruct (filled_spec 4294967296) as (Hreach & _ & Hcov & _ & Hnum & Hcount);
    [done|done|].
  rewrite Hcount, Hnum.
  split; [done|]. split; [done|].
  split; [reflexivity|]. split; [reflexivity|]. discriminate.
Qed.

(** C4 (amended).  When every index below the bit count lies inside the
    storage, [count] succeeds, leaves the object unchanged and returns the
    number of indices in [0, _num_bits) at which [operator[]] reads [true],
    reduced modulo [2^32]; that is the number itself when the bit count is
    below [2^32].  Bits at positions at or beyond the bit count do not
    enter the result: writing one with [set] leaves [count] as it was. *)
Theorem count_spec (s : dynamic_bitset) :
  covered s ->
  count s = (Done (Z.of_nat (num_true s) mod 2 ^ 32), s) /\
  (Z.of_N (_num_bits s) < 2 ^ 32 ->
   count s = (Done (Z.of_nat (num_true s)), s)) /\
  (forall (pos : N) (v : bool),
      (_num_bits s <= pos)%N ->
      fst (count (snd (set pos v s))) = fst (count s)).
Proof.
  intros Hcov. rewrite count_covered by done. split; [done|]. split.
  - intros Hn. pose proof (num_true_le s).
    unfold to_uint32. rewrite Z.mod_small; [done|lia].
  - intros pos v Hpos.
    rewrite count_covered by (by apply set_covered). cbn [fst].
    f_equal. f_equal. f_equal. apply num_true_ext.
    + rewrite set_unfold. by destruct (_data s !! _).
    + intros i Hi. apply get_other_after_set. lia.
Qed.

Lemma count_spec_witness :
  let s := snd ((set 0 true ;; set 9 true ;; set 14 true) (construct 16)) in
  count s = (Done (Z.of_nat (num_true s) mod 2 ^ 32), s) /\
  (Z.of_N (_num_bits s) < 2 ^ 32 ->
   count s = (Done (Z.of_nat (num_true s)), s)) /\
  (forall (pos : N) (v : bool),
      (_num_bits s <= pos)%N ->
      fst (count (snd (set pos v s))) = fst (count s)).
Proof.
  apply (count_spec (snd ((set 0 true ;; set 9 true ;; set 14 true) (construct 16)))).
  intros i Hi. change (i < 16)%N in Hi. unfold byte_index.
  change (length (_data _)) with 2%nat. lia.
Defined.

Example count_three :
  fst ((set 0 true ;; set 9 true ;; set 14 true ;; count) (construct 16)) = Done 3.
Proof. reflexivity. Qed.

Example count_ignores_stray_bit :
  fst ((set 6 true ;; count) (construct 4)) = Done 0.
Proof. reflexivity. Qed.

Example count_out_of_range :
  fst (count (construct 9)) = Fail IndexOutOfRange.
Proof. reflexivity. Qed.

Example set_out_of_range_ten_bits :
  fst ((set 0 true ;; set 9 true ;; count) (construct 10)) = Fail IndexOutOfRange.
Proof. reflexivity. Qed.


(** ** [reset] *)

Lemma reset_get (s : dynamic_bitset) (i : N) :
  (byte_index i < length (_data s))%nat ->
  get i (snd (reset s)) = (Done false, snd (reset s)).
Proof.
  intros Hlt. rewrite reset_unfold, get_unfold. cbn [snd _data].
  rewrite lookup_replicate_2 by done. by rewrite Z.bits_0.
Qed.

Lemma reset_covered (s : dynamic_bitset) : covered s -> covered (snd (reset s)).
Proof.
  unfold covered. rewrite reset_unfold. cbn [snd _data _num_bits].
  by rewrite length_replicate.
Qed.

(** What [reset] does on an object whose storage covers every index. *)
Lemma reset_clears (s : dynamic_bitset) :
  let s' := snd (reset s) in
  fst (reset s) = Done tt /\
  Forall (fun d => d = 0) (_data s') /\
  _num_bits s' = _num_bits s /\
  length (_data s') = length (_data s) /\
  (covered s ->
   count s' = (Done 0, s') /\
   forall i : N, (i < _num_bits s)%N -> get i s' = (Done false, s')).
Proof.
  intros s'. subst s'. split; [by rewrite reset_unfold|].
  split; [rewrite reset_unfold; apply Forall_replicate; done|].
  split; [by rewrite reset_unfold|].
  split; [rewrite reset_unfold; apply length_replicate|].
  intros Hcov.
  assert (forall i : N, (i < _num_bits s)%N ->
            get i (snd (reset s)) = (Done false, snd (reset s))) as Hget.
  { intros i Hi. apply reset_get. by apply Hcov. }
  split; [|done].
  rewrite count_covered by (by apply reset_covered).
  rewrite num_true_none; [done|].
  intros i Hi. rewrite Hget; [done|].
  revert Hi. by rewrite reset_unfold.
Qed.

(** C7 (defect of the code).  [reset] zeroes the one byte of [construct 9]
    and keeps the bit count 9 and the storage length 1; index 8 is then
    still outside the storage, so neither does [count] return 0 nor does
    [operator[]] read [false] at 8: both end with [IndexOutOfRange]. *)
Theorem reset_then_out_of_range :
  snd (reset (construct 9)) = Build 9 [0] /\
  fst ((reset ;; count) (construct 9)) = Fail IndexOutOfRange /\
  fst ((reset ;; get 8) (construct 9)) = Fail IndexOutOfRange.
Proof. repeat split; reflexivity. Qed.

(** ** [to_string] *)

Lemma string_length_app (s1 s2 : string) :
  String.length (s1 +:+ s2) = (String.length s1 + String.length s2)%nat.
Proof. induction s1 as [|a s1 IH]; simpl; [done|by rewrite IH]. Qed.

Lemma string_get_app_l (s1 s2 : string) (k : nat) :
  (k < String.length s1)%nat -> String.get k (s1 +:+ s2) = String.get k s1.
Proof. intros H. symmetry. by apply append_correct1. Qed.

Lemma string_get_app_r (s1 s2 : string) (k : nat) :
  String.get (String.length s1 + k) (s1 +:+ s2) = String.get k s2.
Proof. rewrite Nat.add_comm. symmetry. apply append_correct2. Qed.

Lemma to_string_loop (s : dynamic_bitset) (trip : nat) :
  forall (i : N) (ss : string),
    (i + N.of_nat trip <= _num_bits s)%N ->
    covered s ->
    exists r : string,
      for_loop trip i to_string_body ss s = (Done r, s) /\
      String.length r = (String.length ss + trip)%nat /\
      (forall k : nat, (k < String.length ss)%nat ->
         String.get k r = String.get k ss) /\
      (forall k : nat, (k < trip)%nat ->
         exists b : bool,
           get (_num_bits s - (i + N.of_nat k) - 1)%N s = (Done b, s) /\
           String.get (String.length ss + k) r = Some (digit b)).
Proof.
  induction trip as [|trip IH]; intros i ss Hi Hcov.
  - exists ss. cbn [for_loop]. unfold ret. repeat split; [lia|lia].
  - destruct (get_in_range (_num_bits s - i - 1)%N s) as [b Hb];
      [apply Hcov; lia|].
    set (ss' := ss +:+ (if b then "1" else "0")).
    assert (String.length ss' = S (String.length ss)) as Hlen.
    { subst ss'. rewrite string_length_app. destruct b; simpl; lia. }
    destruct (IH (N.succ i) ss') as (r & Hr & Hlr & Hpre & Hdig); [lia|done|].
    exists r. split; [|split; [|split]].
    + cbn [for_loop]. unfold bind at 1.
      unfold to_string_body at 1, bind, read_num_bits. rewrite Hb.
      unfold ret at 1. exact Hr.
    + lia.
    + intros k Hk. rewrite Hpre by lia. subst ss'.
      by apply string_get_app_l.
    + intros [|k] Hk.
      * exists b. rewrite N.add_0_r, Nat.add_0_r. split; [done|].
        rewrite Hpre by lia. subst ss'.
        rewrite <- (Nat.add_0_r (String.length ss)), string_get_app_r.
        by destruct b.
      * destruct (Hdig k) as (b' & Hb' & Hget); [lia|].
        exists b'. split.
        -- rewrite <- Hb'. f_equal. lia.
        -- rewrite <- Hget. f_equal. lia.
Qed.

(** What [to_string] returns on an object whose storage covers every
    index: [_num_bits] characters, the one at position [k] being the digit
    of the bit at index [_num_bits - 1 - k]. *)
Lemma to_string_covered (s : dynamic_bitset) :
  covered s ->
  exists r : string,
    to_string s = (Done r, s) /\
    String.length r = N.to_nat (_num_bits s) /\
    (forall k : nat, (k < N.to_nat (_num_bits s))%nat ->
       exists b : bool,
         get (_num_bits s - 1 - N.of_nat k)%N s = (Done b, s) /\
         String.get k r = Some (digit b)).
Proof.
  intros Hcov.
  destruct (to_string_loop s (N.to_nat (_num_bits s)) 0 "") as (r & Hr & Hlen & _ & Hdig);
    [lia|done|].
  exists r. split; [|split].
  - unfold to_string, bind, read_num_bits. exact Hr.
  - exact Hlen.
  - intros k Hk. destruct (Hdig k Hk) as (b & Hb & Hget).
    exists b. split; [|exact Hget].
    rewrite <- Hb. f_equal. lia.
Qed.

Example to_string_0101 :
  fst ((set 0 true ;; set 1 false ;; set 2 true ;; set 3 false ;; to_string)
         (construct 4)) = Done "0101".
Proof. reflexivity. Qed.

(** C6 (defect of the code).  For [construct 9] the first character
    [to_string] asks for is the bit at index 8, in byte 1 of a one-byte
    storage: no string of 9 characters is returned, the call ends with
    [IndexOutOfRange]. *)
Theorem to_string_out_of_range :
  _num_bits (construct 9) = 9%N /\
  length (_data (construct 9)) = 1%nat /\
  fst (to_string (construct 9)) = Fail IndexOutOfRange.
Proof. repeat split; reflexivity. Qed.


(** * Further properties of the member functions *)

(** ** How calls of [set] compose *)

Lemma uint8_bits_eq (a b : Z) :
  0 <= a < 2 ^ 8 -> 0 <= b < 2 ^ 8 ->
  (forall o : Z, 0 <= o < 8 -> Z.testbit a o = Z.testbit b o) ->
  a = b.
Proof.
  intros Ha Hb Hbits. apply Z.bits_inj'. intros o Ho.
  destruct (decide (o < 8)) as [Hlt|Hge]; [apply Hbits; lia|].
  rewrite <- (Z.mod_small a (2 ^ 8)), <- (Z.mod_small b (2 ^ 8)) by done.
  rewrite !Z.mod_pow2_bits_high by lia. reflexivity.
Qed.

Lemma written_range (d : Z) (pos : N) (v : bool) :
  0 <= (if v then bit_on d pos else bit_off d pos) < 2 ^ 8.
Proof. destruct v; apply to_uint8_range. Qed.

Lemma testbit_written_at (d : Z) (pos : N) (v : bool) (o : Z) :
  0 <= o < 8 ->
  Z.testbit (if v then bit_on d pos else bit_off d pos) o
  = if decide (o = bit_offset pos) then v else Z.testbit d o.
Proof.
  intros Ho. pose proof (offset_range pos).
  destruct v; unfold bit_on, bit_off.
  - by rewrite testbit_bit_on.
  - by rewrite testbit_bit_off.
Qed.

Lemma written_twice (d : Z) (pos : N) (v w : bool) :
  (if w then bit_on (if v then bit_on d pos else bit_off d pos) pos
   else bit_off (if v then bit_on d pos else bit_off d pos) pos)
  = (if w then bit_on d pos else bit_off d pos).
Proof.
  apply uint8_bits_eq; [apply written_range..|].
  intros o Ho. rewrite !testbit_written_at by done.
  repeat case_decide; congruence.
Qed.

Lemma written_swap (d : Z) (p q : N) (v w : bool) :
  bit_offset p <> bit_offset q ->
  (if w then bit_on (if v then bit_on d p else bit_off d p) q
   else bit_off (if v then bit_on d p else bit_off d p) q)
  = (if v then bit_on (if w then bit_on d q else bit_off d q) p
     else bit_off (if w then bit_on d q else bit_off d q) p).
Proof.
  intros Hne. apply uint8_bits_eq; [apply written_range..|].
  intros o Ho. rewrite !testbit_written_at by done.
  repeat case_decide; congruence.
Qed.

Lemma written_same (d : Z) (pos : N) (v : bool) :
  0 <= d < 2 ^ 8 -> Z.testbit d (bit_offset pos) = v ->
  (if v then bit_on d pos else bit_off d pos) = d.
Proof.
  intros Hd Hbit. apply uint8_bits_eq; [apply written_range|done|].
  intros o Ho. rewrite testbit_written_at by done.
  case_decide; congruence.
Qed.

Lemma set_data (pos : N) (v : bool) (s : dynamic_bitset) (d : Z) :
  _data s !! byte_index pos = Some d ->
  snd (set pos v s)
  = Build (_num_bits s)
      (<[byte_index pos := if v then bit_on d pos else bit_off d pos]> (_data s)).
Proof. intros E. by rewrite (set_in_range _ _ _ _ E). Qed.

(** X1.  Two writes to the same position: the second one decides.  For a
    position whose byte is inside the storage, [set(pos, v)] followed by
    [set(pos, w)] leaves the object that [set(pos, w)] alone leaves; in
    particular [set] is idempotent. *)
Theorem set_set_same (s : dynamic_bitset) (pos : N) (v w : bool) :
  (pos / 8 < N.of_nat (length (_data s)))%N ->
  (set pos v ;; set pos w) s = set pos w s.
Proof.
  intros Hpos.
  assert (byte_index pos < length (_data s))%nat as Hlt
      by (unfold byte_index; lia).
  destruct (lookup_lt_is_Some_2 _ _ Hlt) as [d E].
  unfold bind. rewrite (set_in_range pos v s d E).
  rewrite (set_in_range pos w s d E).
  erewrite set_in_range;
    [|cbn [_data]; by apply list_lookup_insert_eq].
  cbn [_num_bits _data].
  by rewrite list_insert_insert_eq, written_twice.
Qed.

Lemma set_set_same_witness :
  (set 11 true ;; set 11 false) (construct 16) = set 11 false (construct 16).
Proof. apply (set_set_same (construct 16) 11 true false). vm_compute. reflexivity. Defined.

(** X2.  Writes to different positions commute: with both bytes inside the
    storage and [p <> q], [set(p, v); set(q, w)] and [set(q, w); set(p, v)]
    succeed and leave the same object, also when [p] and [q] share a byte. *)
Theorem set_set_commute (s : dynamic_bitset) (p q : N) (v w : bool) :
  (p / 8 < N.of_nat (length (_data s)))%N ->
  (q / 8 < N.of_nat (length (_data s)))%N ->
  p <> q ->
  (set p v ;; set q w) s = (set q w ;; set p v) s /\
  fst ((set p v ;; set q w) s) = Done tt.
Proof.
  intros Hp Hq Hne.
  assert (byte_index p < length (_data s))%nat as Hlp
      by (unfold byte_index; lia).
  assert (byte_index q < length (_data s))%nat as Hlq
      by (unfold byte_index; lia).
  destruct (lookup_lt_is_Some_2 _ _ Hlp) as [dp Ep].
  destruct (lookup_lt_is_Some_2 _ _ Hlq) as [dq Eq].
  unfold bind.
  rewrite (set_in_range p v s dp Ep), (set_in_range q w s dq Eq).
  destruct (decide (byte_index p = byte_index q)) as [Hb|Hb].
  - assert (dq = dp) as -> by (rewrite Hb in Ep; congruence).
    erewrite (set_in_range q w);
      [|cbn [_data]; rewrite Hb; by apply list_lookup_insert_eq].
    erewrite (set_in_range p v);
      [|cbn [_data]; rewrite <- Hb; by apply list_lookup_insert_eq].
    cbn [_num_bits _data fst]. split; [|done].
    rewrite Hb, !list_insert_insert_eq, <- Hb.
    rewrite (written_swap dp p q v w); [done|].
    intros Ho. by apply (position_split p q).
  - erewrite (set_in_range q w);
      [|cbn [_data]; by rewrite list_lookup_insert_ne].
    erewrite (set_in_range p v);
      [|cbn [_data]; by rewrite list_lookup_insert_ne].
    cbn [_num_bits _data fst]. split; [|done].
    by rewrite list_insert_insert_ne.
Qed.

Lemma set_set_commute_witness :
  (set 3 true ;; set 5 false) (construct 8) = (set 5 false ;; set 3 true) (construct 8) /\
  fst ((set 3 true ;; set 5 false) (construct 8)) = Done tt.
Proof.
  apply (set_set_commute (construct 8) 3 5 true false);
    [vm_compute; reflexivity|vm_compute; reflexivity|discriminate].
Defined.

(** X3.  Writing the value a bit already has changes nothing: in a
    reachable state, if [operator[]] reads [v] at [pos] then [set(pos, v)]
    succeeds and leaves the object exactly as it was. *)
Theorem set_same_value (s : dynamic_bitset) (pos : N) (v : bool) :
  reachable s ->
  fst (get pos s) = Done v ->
  set pos v s = (Done tt, s).
Proof.
  intros Hreach Hget. apply reachable_bytes_ok in Hreach.
  rewrite get_unfold in Hget.
  destruct (_data s !! byte_index pos) as [d|] eqn:E; [|discriminate].
  cbn [fst] in Hget. injection Hget as Hbit.
  rewrite (set_in_range pos v s d E). f_equal.
  rewrite written_same; [|by eapply (Forall_lookup_1 _ _ _ _ Hreach)|done].
  rewrite list_insert_id by done. by destruct s.
Qed.

Lemma set_same_value_witness :
  set 2 false (construct 4) = (Done tt, construct 4).
Proof.
  apply (set_same_value (construct 4) 2 false);
    [apply reachable_construct|reflexivity].
Defined.


(** ** When [count] and [to_string] go out of range *)

(** A loop whose body reads one bit, at index [g i], and folds it into the
    accumulator. *)
Section ReadingLoop.
Context {A : Type} (s : dynamic_bitset) (g : N -> N) (f : A -> bool -> A).
Variable body : N -> A -> M A.
Hypothesis body_reads : forall (i : N) (a : A),
  body i a s = match get (g i) s with
               | (Done b, _) => (Done (f a b), s)
               | (Fail e, _) => (Fail e, s)
               end.

Lemma reading_loop_state (trip : nat) (i : N) (a : A) :
  snd (for_loop trip i body a s) = s.
Proof.
  revert i a. induction trip as [|trip IH]; intros i a; [done|].
  cbn [for_loop]. unfold bind. rewrite body_reads, get_unfold.
  destruct (_data s !! _); [apply IH|done].
Qed.

Lemma reading_loop_fails (trip : nat) (i : N) (a : A) :
  fst (for_loop trip i body a s) = Fail IndexOutOfRange
  <-> exists k : N, (k < N.of_nat trip)%N /\
                    (length (_data s) <= byte_index (g (i + k)))%nat.
Proof.
  revert i a. induction trip as [|trip IH]; intros i a.
  - cbn [for_loop]. unfold ret. cbn [fst]. split; [discriminate|].
    intros (k & Hk & _). lia.
  - cbn [for_loop]. unfold bind. rewrite body_reads, get_unfold.
    destruct (_data s !! byte_index (g i)) as [d|] eqn:E.
    + rewrite IH. split.
      * intros (k & Hk & Hbad). exists (N.succ k). split; [lia|].
        by replace (i + N.succ k)%N with (N.succ i + k)%N by lia.
      * intros (k & Hk & Hbad).
        destruct (decide (k = 0%N)) as [->|Hk0].
        -- rewrite N.add_0_r in Hbad.
           apply lookup_ge_None_2 in Hbad. congruence.
        -- exists (N.pred k). split; [lia|].
           by replace (N.succ i + N.pred k)%N with (i + k)%N by lia.
    + cbn [fst]. split; [|done]. intros _. exists 0%N. split; [lia|].
      rewrite N.add_0_r. by apply lookup_ge_None_1.
Qed.
End ReadingLoop.

Lemma count_body_reads (s : dynamic_bitset) (i : N) (c : Z) :
  count_body i c s = match get i s with
                     | (Done b, _) => (Done (to_uint32 (c + (if b then 1 else 0))), s)
                     | (Fail e, _) => (Fail e, s)
                     end.
Proof.
  unfold count_body, bind. rewrite get_unfold.
  by destruct (_data s !! _).
Qed.

Lemma to_string_body_reads (s : dynamic_bitset) (i : N) (ss : string) :
  to_string_body i ss s
  = match get (_num_bits s - i - 1)%N s with
    | (Done b, _) => (Done (ss +:+ (if b then "1" else "0")), s)
    | (Fail e, _) => (Fail e, s)
    end.
Proof.
  unfold to_string_body, bind, read_num_bits. rewrite get_unfold.
  by destruct (_data s !! _).
Qed.

Lemma last_index_outside (s : dynamic_bitset) (g : N -> N) :
  (forall k : N, (k < _num_bits s)%N -> (g k < _num_bits s)%N) ->
  ((0 < _num_bits s)%N ->
   exists k : N, (k < _num_bits s)%N /\ g k = (_num_bits s - 1)%N) ->
  (exists k : N, (k < N.of_nat (N.to_nat (_num_bits s)))%N /\
                 (length (_data s) <= byte_index (g (0 + k)%N))%nat)
  <-> (0 < _num_bits s /\
       (_num_bits s - 1) / 8 >= N.of_nat (length (_data s)))%N.
Proof.
  intros Hg Hlast. unfold byte_index. split.
  - intros (k & Hk & Hbad). rewrite N.add_0_l in Hbad.
    specialize (Hg k ltac:(lia)). lia.
  - intros [Hpos Hbad]. destruct (Hlast Hpos) as (k0 & Hk0 & Hg0).
    exists k0. rewrite N.add_0_l, Hg0. lia.
Qed.

Lemma count_outcome (s : dynamic_bitset) :
  (fst (count s) = Fail IndexOutOfRange
   <-> (0 < _num_bits s /\
        (_num_bits s - 1) / 8 >= N.of_nat (length (_data s)))%N) /\
  snd (count s) = s.
Proof.
  unfold count, bind, read_num_bits. split.
  - rewrite (reading_loop_fails s (fun i => i) _ _ (count_body_reads s)).
    apply (last_index_outside s (fun i => i)); [done|].
    intros Hpos. exists (_num_bits s - 1)%N. lia.
  - apply (reading_loop_state s (fun i => i) _ _ (count_body_reads s)).
Qed.

Lemma to_string_outcome (s : dynamic_bitset) :
  (fst (to_string s) = Fail IndexOutOfRange
   <-> (0 < _num_bits s /\
        (_num_bits s - 1) / 8 >= N.of_nat (length (_data s)))%N) /\
  snd (to_string s) = s.
Proof.
  unfold to_string, bind, read_num_bits. split.
  - rewrite (reading_loop_fails s (fun i => (_num_bits s - i - 1)%N) _ _
               (to_string_body_reads s)).
    apply (last_index_outside s (fun i => (_num_bits s - i - 1)%N)); [lia|].
    intros Hpos. exists 0%N. lia.
  - apply (reading_loop_state s (fun i => (_num_bits s - i - 1)%N) _ _
             (to_string_body_reads s)).
Qed.

(** X4.  [count] never changes the object, and it goes out of range exactly
    when the last logical index is outside the storage, that is when
    [_num_bits > 0] and [(_num_bits - 1) / 8 >= _data.size()]; in every
    other state it returns a value below [2^32]. *)
Theorem count_fails_iff (s : dynamic_bitset) :
  snd (count s) = s /\
  (fst (count s) = Fail IndexOutOfRange
   <-> (0 < _num_bits s /\
        (_num_bits s - 1) / 8 >= N.of_nat (length (_data s)))%N) /\
  (~ (0 < _num_bits s /\
      (_num_bits s - 1) / 8 >= N.of_nat (length (_data s)))%N ->
   exists c : Z, fst (count s) = Done c /\ 0 <= c < 2 ^ 32 /\
                 c <= Z.of_N (_num_bits s)).
Proof.
  destruct (count_outcome s) as [Hfail Hstate].
  split; [done|]. split; [done|]. intros Hin.
  assert (covered s) as Hcov.
  { intros i Hi. unfold byte_index.
    destruct (decide (N.to_nat (i / 8) < length (_data s))%nat); [done|].
    exfalso. apply Hin. lia. }
  rewrite count_covered by done. eexists. split; [done|].
  pose proof (num_true_le s). pose proof (to_uint32_range (Z.of_nat (num_true s))).
  split; [done|]. unfold to_uint32.
  pose proof (Z.mod_le (Z.of_nat (num_true s)) (2 ^ 32)). lia.
Qed.

(** X5.  [to_string] never changes the object, and it goes out of range in
    exactly the states in which [count] does: when [_num_bits > 0] and
    [(_num_bits - 1) / 8 >= _data.size()].  In every other state it returns
    a string of [_num_bits] characters. *)
Theorem to_string_fails_iff (s : dynamic_bitset) :
  snd (to_string s) = s /\
  (fst (to_string s) = Fail IndexOutOfRange
   <-> (0 < _num_bits s /\
        (_num_bits s - 1) / 8 >= N.of_nat (length (_data s)))%N) /\
  (fst (to_string s) = Fail IndexOutOfRange
   <-> fst (count s) = Fail IndexOutOfRange) /\
  (~ (0 < _num_bits s /\
      (_num_bits s - 1) / 8 >= N.of_nat (length (_data s)))%N ->
   exists r : string, fst (to_string s) = Done r /\
                      String.length r = N.to_nat (_num_bits s)).
Proof.
  destruct (to_string_outcome s) as [Hfail Hstate].
  destruct (count_outcome s) as [Hcount _].
  split; [done|]. split; [done|]. split; [by rewrite Hfail, Hcount|].
  intros Hin.
  assert (covered s) as Hcov.
  { intros i Hi. unfold byte_index.
    destruct (decide (N.to_nat (i / 8) < length (_data s))%nat); [done|].
    exfalso. apply Hin. lia. }
  destruct (to_string_covered s Hcov) as (r & Hr & Hlen & _).
  exists r. by rewrite Hr.
Qed.



(** ** Freshly sized objects *)

Lemma num_words_max (nbits : N) : num_words nbits = N.max 1 (nbits / 8).
Proof. unfold num_words. destruct (N.ltb_spec nbits 8); lia. Qed.

Lemma resize_length (nbits : N) (s : dynamic_bitset) :
  length (_data (snd (resize nbits s))) = N.to_nat (num_words nbits).
Proof. rewrite resize_unfold. cbn [snd _data]. apply length_resize. Qed.

Lemma resize_num_bits (nbits : N) (s : dynamic_bitset) :
  _num_bits (snd (resize nbits s)) = nbits.
Proof. by rewrite resize_unfold. Qed.

Lemma construct_num_bits (nbits : N) : _num_bits (construct nbits) = nbits.
Proof. by rewrite construct_unfold. Qed.

Lemma sized_last_index_outside (nbits : N) :
  (0 < nbits /\ (nbits - 1) / 8 >= N.of_nat (N.to_nat (num_words nbits)))%N
  <-> (8 < nbits /\ nbits mod 8 <> 0)%N.
Proof. rewrite num_words_max. lia. Qed.

Lemma reachable_length (s : dynamic_bitset) :
  reachable s ->
  s = default_bitset \/
  length (_data s) = N.to_nat (num_words (_num_bits s)).
Proof.
  induction 1 as [|nbits|m s Hs IH].
  - by left.
  - right. by rewrite construct_length, construct_num_bits.
  - destruct (call_length m s) as [[nbits ->]|[Hn Hl]].
    + right. unfold call. by rewrite resize_length, resize_num_bits.
    + destruct IH as [->|IH].
      * left. apply empty_storage_default; [by apply reachable_call, reachable_default|].
        apply length_zero_iff_nil. by rewrite Hl.
      * right. by rewrite Hn, Hl.
Qed.

(** X6.  Which states are affected by the word-count formula.  In every
    state reached from either constructor by [resize], [set] and [reset],
    [count] and [to_string] go out of range exactly when the bit count is
    above 8 and not a multiple of 8. *)
Theorem reachable_fails_iff (s : dynamic_bitset) :
  reachable s ->
  (fst (count s) = Fail IndexOutOfRange
   <-> (8 < _num_bits s /\ _num_bits s mod 8 <> 0)%N) /\
  (fst (to_string s) = Fail IndexOutOfRange
   <-> (8 < _num_bits s /\ _num_bits s mod 8 <> 0)%N).
Proof.
  intros Hreach.
  destruct (count_outcome s) as [Hc _].
  destruct (to_string_outcome s) as [Ht _].
  rewrite Hc, Ht.
  destruct (reachable_length s Hreach) as [->|Hlen].
  - cbn [default_bitset _num_bits _data length]. split; lia.
  - rewrite Hlen. split; apply sized_last_index_outside.
Qed.

Lemma reachable_fails_iff_witness :
  (fst (count (snd (resize 12 (construct 4)))) = Fail IndexOutOfRange
   <-> (8 < _num_bits (snd (resize 12 (construct 4)))
        /\ _num_bits (snd (resize 12 (construct 4))) mod 8 <> 0)%N) /\
  (fst (to_string (snd (resize 12 (construct 4)))) = Fail IndexOutOfRange
   <-> (8 < _num_bits (snd (resize 12 (construct 4)))
        /\ _num_bits (snd (resize 12 (construct 4))) mod 8 <> 0)%N).
Proof.
  apply (reachable_fails_iff (snd (resize 12 (construct 4)))).
  exact (reachable_call (Resize 12) _ (reachable_construct 4)).
Defined.

(** X7.  The positions that can be read and written.  In every reachable
    state other than the default-constructed one, [operator[]] and [set]
    succeed exactly at the positions below [8 * max(1, _num_bits / 8)]:
    all positions below 8 when the bit count is below 8, and only those
    below the bit count rounded down to a multiple of 8 otherwise. *)
Theorem reachable_access_iff (s : dynamic_bitset) (pos : N) (v : bool) :
  reachable s -> s <> default_bitset ->
  ((exists b : bool, fst (get pos s) = Done b)
   <-> (pos < 8 * N.max 1 (_num_bits s / 8))%N) /\
  (fst (set pos v s) = Done tt
   <-> (pos < 8 * N.max 1 (_num_bits s / 8))%N).
Proof.
  intros Hreach Hne.
  destruct (reachable_length s Hreach) as [?|Hlen]; [done|].
  assert ((pos < 8 * N.max 1 (_num_bits s / 8))%N
          <-> is_Some (_data s !! byte_index pos)) as ->.
  { rewrite lookup_lt_is_Some, Hlen, num_words_max. unfold byte_index. lia. }
  rewrite get_unfold, set_unfold.
  destruct (_data s !! byte_index pos) as [d|]; cbn [fst].
  - split; (split; intros _; [by eexists|]); [by eexists|done].
  - split; (split; [|intros [? ?]; discriminate]);
      [intros [? ?]; discriminate|discriminate].
Qed.

Lemma reachable_access_iff_witness :
  ((exists b : bool, fst (get 9 (construct 12)) = Done b)
   <-> (9 < 8 * N.max 1 (_num_bits (construct 12) / 8))%N) /\
  (fst (set 9 true (construct 12)) = Done tt
   <-> (9 < 8 * N.max 1 (_num_bits (construct 12) / 8))%N).
Proof.
  apply (reachable_access_iff (construct 12) 9 true).
  - apply reachable_construct.
  - discriminate.
Defined.

(** X8.  What a fresh object reads as.  When [nbits < 8] or [nbits] is a
    multiple of 8, [count] on the newly constructed object returns 0 and
    [to_string] returns [nbits] characters, all of them '0'. *)
Theorem construct_reads_zero (nbits : N) :
  (nbits < 8 \/ nbits mod 8 = 0)%N ->
  count (construct nbits) = (Done 0, construct nbits) /\
  exists r : string,
    to_string (construct nbits) = (Done r, construct nbits) /\
    String.length r = N.to_nat nbits /\
    (forall k : nat, (k < N.to_nat nbits)%nat -> String.get k r = Some "0"%char).
Proof.
  intros Hsize. apply construct_covered in Hsize as Hcov.
  assert (forall i : N, (i < nbits)%N ->
            get i (construct nbits) = (Done false, construct nbits)) as Hget.
  { intros i Hi. apply construct_zero_fill, Hcov.
    by rewrite construct_num_bits. }
  split.
  - rewrite count_covered by done.
    rewrite num_true_none; [done|].
    intros i Hi. rewrite construct_num_bits in Hi. by rewrite Hget.
  - destruct (to_string_covered _ Hcov) as (r & Hr & Hlen & Hdig).
    rewrite construct_num_bits in Hlen, Hdig.
    exists r. split; [done|]. split; [done|].
    intros k Hk. destruct (Hdig k Hk) as (b & Hb & Hch).
    rewrite Hget in Hb by lia. injection Hb as <-. exact Hch.
Qed.

Lemma construct_reads_zero_witness :
  count (construct 16) = (Done 0, construct 16) /\
  exists r : string,
    to_string (construct 16) = (Done r, construct 16) /\
    String.length r = N.to_nat 16 /\
    (forall k : nat, (k < N.to_nat 16)%nat -> String.get k r = Some "0"%char).
Proof. apply (construct_reads_zero 16). right. reflexivity. Defined.

(** ** The default-constructed object *)

(** X9.  The default-constructed object has no storage at all: every
    [operator[]] and every [set] on it is out of range, [count] returns 0,
    [to_string] returns the empty string, [reset] leaves it as it is, and
    [resize(nbits)] turns it into the object the sized constructor builds. *)
Theorem default_behaviour (pos nbits : N) (v : bool) :
  get pos default_bitset = (Fail IndexOutOfRange, default_bitset) /\
  set pos v default_bitset = (Fail IndexOutOfRange, default_bitset) /\
  count default_bitset = (Done 0, default_bitset) /\
  to_string default_bitset = (Done "", default_bitset) /\
  reset default_bitset = (Done tt, default_bitset) /\
  resize nbits default_bitset = (Done tt, construct nbits).
Proof.
  rewrite get_unfold, set_unfold, resize_unfold, construct_unfold.
  cbn [default_bitset _data]. rewrite lookup_nil, resize_nil.
  repeat split.
Qed.

(** ** [reset] and the constructor *)

(** X10.  [reset] brings the object back to its freshly constructed state:
    in every state reached through the sized constructor or a [resize],
    whatever was set since, [reset] leaves exactly the object that
    [dynamic_bitset(_num_bits)] builds. *)
Theorem reset_is_construct (s : dynamic_bitset) :
  reachable s -> s <> default_bitset ->
  reset s = (Done tt, construct (_num_bits s)).
Proof.
  intros Hreach Hne. destruct (reachable_length s Hreach) as [?|Hlen]; [done|].
  by rewrite reset_unfold, construct_unfold, Hlen.
Qed.

Lemma reset_is_construct_witness :
  reset (snd ((set 3 true ;; resize 20 ;; set 12 true) (construct 4)))
  = (Done tt, construct 20).
Proof.
  apply (reset_is_construct (snd ((set 3 true ;; resize 20 ;; set 12 true) (construct 4)))).
  - exact (reachable_call (Set_ 12 true) _
             (reachable_call (Resize 20) _
                (reachable_call (Set_ 3 true) _ (reachable_construct 4)))).
  - discriminate.
Defined.


(** ** Bits across [resize] *)

Lemma get_of_byte (pos : N) (s s' : dynamic_bitset) :
  _data s' !! byte_index pos = _data s !! byte_index pos ->
  fst (get pos s') = fst (get pos s).
Proof. intros E. rewrite !get_unfold, E. by destruct (_data s !! _). Qed.

Lemma get_zero_byte (pos : N) (s : dynamic_bitset) :
  _data s !! byte_index pos = Some 0 -> fst (get pos s) = Done false.
Proof. intros E. rewrite get_unfold, E. cbn [fst]. by rewrite Z.bits_0. Qed.

Lemma get_no_byte (pos : N) (s : dynamic_bitset) :
  (length (_data s) <= byte_index pos)%nat ->
  fst (get pos s) = Fail IndexOutOfRange.
Proof. intros H. by rewrite get_unfold, (lookup_ge_None_2 _ _ H). Qed.

(** X11.  What [operator[]] reads after [resize(nbits)].  A bit whose byte
    is inside the storage before and after reads as before, also when its
    position is at or beyond the new bit count; a bit in an added byte reads
    [false]; a position whose byte is beyond the new storage is out of
    range. *)
Theorem resize_get (s : dynamic_bitset) (nbits pos : N) :
  let s' := snd (resize nbits s) in
  ((pos / 8 < N.of_nat (length (_data s)))%N -> (pos / 8 < num_words nbits)%N ->
   fst (get pos s') = fst (get pos s)) /\
  ((N.of_nat (length (_data s)) <= pos / 8)%N -> (pos / 8 < num_words nbits)%N ->
   fst (get pos s') = Done false) /\
  ((num_words nbits <= pos / 8)%N ->
   fst (get pos s') = Fail IndexOutOfRange).
Proof.
  intros s'. subst s'. rewrite resize_unfold. cbn [snd]. repeat split.
  - intros Hold Hnew. apply get_of_byte. cbn [_data].
    apply lookup_resize; unfold byte_index; lia.
  - intros Hold Hnew. apply get_zero_byte. cbn [_data].
    apply lookup_resize_new; unfold byte_index; lia.
  - intros Hnew. apply get_no_byte. cbn [_data].
    rewrite length_resize. unfold byte_index. lia.
Qed.

(** X12.  A [resize] followed by a [resize] to a size that needs no more
    bytes is the second [resize] alone; in particular [resize] is
    idempotent, and shrinking in two steps equals shrinking in one. *)
Theorem resize_resize_shrink (s : dynamic_bitset) (m n : N) :
  (num_words n <= num_words m)%N ->
  (resize m ;; resize n) s = resize n s.
Proof.
  intros Hle. unfold bind. rewrite !resize_unfold. cbn [_data].
  rewrite resize_resize by lia. reflexivity.
Qed.

Lemma resize_resize_shrink_witness :
  (resize 40 ;; resize 17) (construct 64) = resize 17 (construct 64).
Proof. apply (resize_resize_shrink (construct 64) 40 17). vm_compute. discriminate. Defined.

(** X13.  Shrinking and growing back.  After [resize(m); resize(n)] with
    [n] needing at least as many bytes as [m], the bits of the bytes that
    [resize(m)] kept read as they did at the start -- including stale bits
    at positions at or beyond [m] in the last kept byte -- and the bits of
    all bytes that [resize(m)] dropped read [false]: the vector does not
    bring dropped bytes back. *)
Theorem resize_shrink_grow (s : dynamic_bitset) (m n pos : N) :
  (num_words m <= num_words n)%N ->
  let s' := snd ((resize m ;; resize n) s) in
  ((pos / 8 < N.of_nat (length (_data s)))%N -> (pos / 8 < num_words m)%N ->
   fst (get pos s') = fst (get pos s)) /\
  ((num_words m <= pos / 8)%N -> (pos / 8 < num_words n)%N ->
   fst (get pos s') = Done false).
Proof.
  intros Hle s'. subst s'. unfold bind. rewrite !resize_unfold.
  cbn [snd _data]. split.
  - intros Hold Hkept. apply get_of_byte. cbn [_data].
    rewrite lookup_resize; [|unfold byte_index; lia|].
    + apply lookup_resize; unfold byte_index; lia.
    + rewrite length_resize. unfold byte_index. lia.
  - intros Hdropped Hnew. apply get_zero_byte. cbn [_data].
    apply lookup_resize_new; [|unfold byte_index; lia].
    rewrite length_resize. unfold byte_index. lia.
Qed.

Lemma resize_shrink_grow_witness :
  let s := snd ((set 7 true ;; set 12 true) (construct 16)) in
  let s' := snd ((resize 4 ;; resize 16) s) in
  ((7 / 8 < N.of_nat (length (_data s)))%N -> (7 / 8 < num_words 4)%N ->
   fst (get 7 s') = fst (get 7 s)) /\
  ((num_words 4 <= 7 / 8)%N -> (7 / 8 < num_words 16)%N ->
   fst (get 7 s') = Done false).
Proof.
  apply (resize_shrink_grow (snd ((set 7 true ;; set 12 true) (construct 16))) 4 16 7).
  vm_compute. discriminate.
Defined.

Example stale_bit_survives :
  fst ((set 7 true ;; set 12 true ;; resize 4 ;; resize 16 ;; get 7) (construct 16))
  = Done true /\
  fst ((set 7 true ;; set 12 true ;; resize 4 ;; resize 16 ;; get 12) (construct 16))
  = Done false /\
  fst ((set 7 true ;; set 12 true ;; resize 4 ;; count) (construct 16)) = Done 0 /\
  fst ((set 7 true ;; set 12 true ;; resize 4 ;; resize 16 ;; count) (construct 16))
  = Done 1.
Proof. repeat split; reflexivity. Qed.


(** ** [count] and [to_string] after [set] *)

Lemma indices_from_app (i : N) (a b : nat) :
  indices_from i (a + b) = indices_from i a ++ indices_from (i + N.of_nat a) b.
Proof.
  unfold indices_from. rewrite seq_app, fmap_app.
  by replace (N.to_nat (i + N.of_nat a)) with (N.to_nat i + a)%nat by lia.
Qed.

Lemma indices_split (n pos : N) :
  (pos < n)%N ->
  indices_from 0 (N.to_nat n)
  = indices_from 0 (N.to_nat pos)
      ++ pos :: indices_from (N.succ pos) (N.to_nat (n - pos - 1)).
Proof.
  intros Hpos.
  replace (N.to_nat n) with (N.to_nat pos + S (N.to_nat (n - pos - 1)))%nat by lia.
  rewrite indices_from_app, N.add_0_l, N2Nat.id. f_equal.
  apply indices_from_succ.
Qed.

Lemma num_true_split (s : dynamic_bitset) (pos : N) (b : bool) :
  (pos < _num_bits s)%N ->
  fst (get pos s) = Done b ->
  num_true s
  = (length (filter (reads_true s) (indices_from 0 (N.to_nat pos)))
     + (if b then 1 else 0)
     + length (filter (reads_true s)
                 (indices_from (N.succ pos) (N.to_nat (_num_bits s - pos - 1)))))%nat.
Proof.
  intros Hpos Hb. unfold num_true.
  rewrite (indices_split _ pos Hpos), filter_app, length_app.
  destruct b.
  - rewrite filter_cons_True by done. cbn [length]. lia.
  - rewrite filter_cons_False by (unfold reads_true; rewrite Hb; discriminate).
    lia.
Qed.

Lemma num_true_after_set (s : dynamic_bitset) (pos : N) (b v : bool) :
  (pos < _num_bits s)%N ->
  fst (get pos s) = Done b ->
  (num_true (snd (set pos v s)) + (if b then 1 else 0)
   = num_true s + (if v then 1 else 0))%nat.
Proof.
  intros Hpos Hb.
  assert (byte_index pos < length (_data s))%nat as Hlt.
  { rewrite get_unfold in Hb.
    destruct (_data s !! byte_index pos) eqn:E; [|discriminate].
    by eapply lookup_lt_Some. }
  assert (_num_bits (snd (set pos v s)) = _num_bits s) as Hn.
  { rewrite set_unfold. by destruct (_data s !! _). }
  rewrite (num_true_split s pos b Hpos Hb).
  rewrite (num_true_split (snd (set pos v s)) pos v);
    [|by rewrite Hn|by rewrite get_after_set].
  rewrite Hn.
  rewrite (filter_ext_elem (reads_true (snd (set pos v s))) (reads_true s)
             (indices_from 0 _)).
  2:{ intros x Hx. apply elem_of_indices_from in Hx. unfold reads_true.
      rewrite get_other_after_set by lia. done. }
  rewrite (filter_ext_elem (reads_true (snd (set pos v s))) (reads_true s)
             (indices_from (N.succ pos) _)).
  2:{ intros x Hx. apply elem_of_indices_from in Hx. unfold reads_true.
      rewrite get_other_after_set by lia. done. }
  lia.
Qed.

(** X14.  How [set] moves [count].  In a state whose storage covers every
    index and whose bit count is below [2^32], for a position below the bit
    count that reads [b]: after [set(pos, v)], [count] returns the old count
    minus [b] plus [v] -- one more when a clear bit is set, one less when a
    set bit is cleared, the same otherwise. *)
Theorem count_after_set (s : dynamic_bitset) (pos : N) (b v : bool) :
  covered s ->
  Z.of_N (_num_bits s) < 2 ^ 32 ->
  (pos < _num_bits s)%N ->
  fst (get pos s) = Done b ->
  exists c : Z,
    fst (count s) = Done c /\
    fst ((set pos v ;; count) s) = Done (c - Z.b2z b + Z.b2z v).
Proof.
  intros Hcov Hsmall Hpos Hb.
  pose proof (num_true_after_set s pos b v Hpos Hb) as Hnum.
  assert (_num_bits (snd (set pos v s)) = _num_bits s) as Hn.
  { rewrite set_unfold. by destruct (_data s !! _). }
  exists (Z.of_nat (num_true s)). split.
  - rewrite count_covered by done. cbn [fst]. f_equal.
    pose proof (num_true_le s). unfold to_uint32. apply Z.mod_small. lia.
  - unfold bind. pose proof (set_succeeds pos v s (Hcov pos Hpos)) as Hok.
    destruct (set pos v s) as [[[]|e] s1] eqn:E; [|discriminate].
    cbn [snd] in *. rewrite count_covered.
    + cbn [fst]. f_equal. pose proof (num_true_le s1).
      unfold to_uint32. rewrite Z.mod_small by lia.
      destruct b, v; cbn [Z.b2z]; lia.
    + replace s1 with (snd (set pos v s)) by (by rewrite E).
      by apply set_covered.
Qed.

Lemma count_after_set_witness :
  exists c : Z,
    fst (count (construct 16)) = Done c /\
    fst ((set 11 true ;; count) (construct 16)) = Done (c - Z.b2z false + Z.b2z true).
Proof.
  apply (count_after_set (construct 16) 11 false true).
  - apply construct_covered. right. reflexivity.
  - reflexivity.
  - reflexivity.
  - reflexivity.
Defined.

Lemma to_string_loop_ext (s s' : dynamic_bitset) (trip : nat) :
  _num_bits s' = _num_bits s ->
  forall (i : N) (ss : string),
    (forall k : N, (k < N.of_nat trip)%N ->
       fst (get (_num_bits s - (i + k) - 1)%N s')
       = fst (get (_num_bits s - (i + k) - 1)%N s)) ->
    fst (for_loop trip i to_string_body ss s')
    = fst (for_loop trip i to_string_body ss s).
Proof.
  intros Hn. induction trip as [|trip IH]; intros i ss Hget; [done|].
  cbn [for_loop]. unfold bind. rewrite !to_string_body_reads, Hn.
  specialize (Hget 0%N ltac:(lia)) as H0. rewrite N.add_0_r in H0.
  destruct (get (_num_bits s - i - 1)%N s') as [[b'|e'] t'],
           (get (_num_bits s - i - 1)%N s) as [[b|e] t];
    cbn [fst] in H0; try discriminate.
  - injection H0 as ->. apply IH. intros k Hk.
    specialize (Hget (N.succ k) ltac:(lia)).
    by replace (N.succ i + k)%N with (i + N.succ k)%N by lia.
  - cbn [fst]. by destruct e', e.
Qed.

(** X15.  [to_string] does not show bits at or beyond the bit count:
    [set(pos, v)] at a position [pos >= _num_bits] leaves the outcome of
    [to_string] as it was. *)
Theorem to_string_ignores_high_bits (s : dynamic_bitset) (pos : N) (v : bool) :
  (_num_bits s <= pos)%N ->
  fst (to_string (snd (set pos v s))) = fst (to_string s).
Proof.
  intros Hpos.
  assert (_num_bits (snd (set pos v s)) = _num_bits s) as Hn.
  { rewrite set_unfold. by destruct (_data s !! _). }
  unfold to_string, bind, read_num_bits. rewrite Hn.
  apply to_string_loop_ext; [done|].
  intros k Hk. apply get_other_after_set. lia.
Qed.

Lemma to_string_ignores_high_bits_witness :
  fst (to_string (snd (set 6 true (construct 4)))) = fst (to_string (construct 4)).
Proof. apply (to_string_ignores_high_bits (construct 4) 6 true). vm_compute. discriminate. Defined.

(** X16.  How [set] shows in [to_string].  In a state whose storage covers
    every index, [set(pos, v)] at a position below the bit count replaces
    the character at output position [_num_bits - 1 - pos] by the digit of
    [v] and leaves every other character as it was. *)
Theorem to_string_after_set (s : dynamic_bitset) (pos : N) (v : bool) :
  covered s ->
  (pos < _num_bits s)%N ->
  exists r r' : string,
    fst (to_string s) = Done r /\
    fst ((set pos v ;; to_string) s) = Done r' /\
    String.length r' = String.length r /\
    String.get (N.to_nat (_num_bits s - 1 - pos)) r' = Some (digit v) /\
    (forall k : nat, (k < N.to_nat (_num_bits s))%nat ->
       k <> N.to_nat (_num_bits s - 1 - pos) ->
       String.get k r' = String.get k r).
Proof.
  intros Hcov Hpos.
  assert (_num_bits (snd (set pos v s)) = _num_bits s) as Hn.
  { rewrite set_unfold. by destruct (_data s !! _). }
  destruct (to_string_covered s Hcov) as (r & Hr & Hlen & Hdig).
  destruct (to_string_covered _ (set_covered pos v s Hcov)) as (r' & Hr' & Hlen' & Hdig').
  rewrite Hn in Hlen', Hdig'.
  exists r, r'. split; [by rewrite Hr|]. split; [|split; [lia|split]].
  - unfold bind. pose proof (set_succeeds pos v s (Hcov pos Hpos)) as Hok.
    destruct (set pos v s) as [[[]|e] s1] eqn:E; [|discriminate].
    cbn [snd] in Hr'. by rewrite Hr'.
  - destruct (Hdig' (N.to_nat (_num_bits s - 1 - pos))) as (b & Hb & Hch); [lia|].
    replace (_num_bits s - 1 - N.of_nat (N.to_nat (_num_bits s - 1 - pos)))%N
      with pos in Hb by lia.
    rewrite get_after_set in Hb by (by apply Hcov).
    by injection Hb as <-.
  - intros k Hk Hne.
    destruct (Hdig' k Hk) as (b' & Hb' & ->).
    destruct (Hdig k Hk) as (b & Hb & ->).
    apply (f_equal fst) in Hb', Hb. cbn [fst] in Hb', Hb.
    rewrite get_other_after_set in Hb' by lia. congruence.
Qed.

Lemma to_string_after_set_witness :
  exists r r' : string,
    fst (to_string (construct 8)) = Done r /\
    fst ((set 2 true ;; to_string) (construct 8)) = Done r' /\
    String.length r' = String.length r /\
    String.get (N.to_nat (_num_bits (construct 8) - 1 - 2)) r' = Some (digit true) /\
    (forall k : nat, (k < N.to_nat (_num_bits (construct 8)))%nat ->
       k <> N.to_nat (_num_bits (construct 8) - 1 - 2) ->
       String.get k r' = String.get k r).
Proof.
  apply (to_string_after_set (construct 8) 2 true).
  - apply construct_covered. right. reflexivity.
  - reflexivity.
Defined.

(** X17.  [count] returns 0 exactly when no bit is set: in a state whose
    storage covers every index and whose bit count is below [2^32], the
    result is 0 if and only if [operator[]] reads [false] at every index
    below the bit count. *)
Theorem count_zero_iff (s : dynamic_bitset) :
  covered s ->
  Z.of_N (_num_bits s) < 2 ^ 32 ->
  (fst (count s) = Done 0
   <-> forall i : N, (i < _num_bits s)%N -> fst (get i s) = Done false).
Proof.
  intros Hcov Hsmall. rewrite count_covered by done. cbn [fst].
  pose proof (num_true_le s) as Hle. unfold to_uint32.
  rewrite Z.mod_small by lia. split.
  - intros Hzero i Hi. injection Hzero as Hzero.
    assert (filter (reads_true s) (indices_from 0 (N.to_nat (_num_bits s))) = [])
      as Hnil by (apply length_zero_iff_nil; unfold num_true in Hzero; lia).
    destruct (get_in_range i s (Hcov i Hi)) as [[|] Hb]; [|by rewrite Hb].
    exfalso. eapply (not_elem_of_nil i). rewrite <- Hnil.
    apply list_elem_of_filter. split.
    + unfold reads_true. by rewrite Hb.
    + apply elem_of_indices_from. lia.
  - intros Hall. by rewrite num_true_none.
Qed.

Lemma count_zero_iff_witness :
  fst (count (construct 16)) = Done 0
  <-> forall i : N, (i < _num_bits (construct 16))%N ->
                    fst (get i (construct 16)) = Done false.
Proof.
  apply (count_zero_iff (construct 16)).
  - apply construct_covered. right. reflexivity.
  - reflexivity.
Defined.


(** ** [count] against [to_string] *)

Lemma ones_app (r1 r2 : string) : ones (r1 +:+ r2) = (ones r1 + ones r2)%nat.
Proof. induction r1 as [|c r1 IH]; simpl; [done|]. rewrite IH. lia. Qed.

Lemma indices_from_snoc (i : N) (len : nat) :
  indices_from i (S len) = indices_from i len ++ [(i + N.of_nat len)%N].
Proof.
  replace (S len) with (len + 1)%nat by lia. rewrite indices_from_app.
  f_equal. rewrite indices_from_succ. done.
Qed.

Lemma to_string_loop_ones (s : dynamic_bitset) (trip : nat) :
  covered s ->
  forall (i : N) (ss : string),
    (i + N.of_nat trip <= _num_bits s)%N ->
    exists r : string,
      for_loop trip i to_string_body ss s = (Done r, s) /\
      ones r = (ones ss
                + length (filter (reads_true s)
                            (indices_from (_num_bits s - i - N.of_nat trip) trip)))%nat.
Proof.
  intros Hcov. induction trip as [|trip IH]; intros i ss Hi.
  - exists ss. split; [done|]. cbn. lia.
  - destruct (get_in_range (_num_bits s - i - 1)%N s) as [b Hb];
      [apply Hcov; lia|].
    destruct (IH (N.succ i) (ss +:+ (if b then "1" else "0")))
      as (r & Hr & Hones); [lia|].
    exists r. split.
    + cbn [for_loop]. unfold bind at 1.
      rewrite to_string_body_reads, Hb. exact Hr.
    + rewrite Hones, ones_app, indices_from_snoc, filter_app, length_app.
      replace (_num_bits s - N.succ i - N.of_nat trip)%N
        with (_num_bits s - i - N.of_nat (S trip))%N by lia.
      replace (_num_bits s - i - N.of_nat (S trip) + N.of_nat trip)%N
        with (_num_bits s - i - 1)%N by lia.
      destruct b.
      * rewrite filter_cons_True by (unfold reads_true; by rewrite Hb).
        cbn. lia.
      * rewrite filter_cons_False
          by (unfold reads_true; rewrite Hb; discriminate).
        cbn. lia.
Qed.

(** X18.  [count] agrees with [to_string]: in a state whose storage covers
    every index and whose bit count is below [2^32], the number [count]
    returns is the number of '1' characters in the string [to_string]
    returns. *)
Theorem count_is_ones_of_to_string (s : dynamic_bitset) :
  covered s ->
  Z.of_N (_num_bits s) < 2 ^ 32 ->
  exists r : string,
    fst (to_string s) = Done r /\
    fst (count s) = Done (Z.of_nat (ones r)).
Proof.
  intros Hcov Hsmall.
  destruct (to_string_loop_ones s (N.to_nat (_num_bits s)) Hcov 0 "")
    as (r & Hr & Hones); [lia|].
  exists r. split.
  - unfold to_string, bind, read_num_bits. by rewrite Hr.
  - rewrite count_covered by done. cbn [fst]. f_equal.
    pose proof (num_true_le s). unfold to_uint32. rewrite Z.mod_small by lia.
    f_equal. rewrite Hones. unfold num_true. cbn [ones].
    by replace (_num_bits s - 0 - N.of_nat (N.to_nat (_num_bits s)))%N
      with 0%N by lia.
Qed.

Lemma count_is_ones_of_to_string_witness :
  exists r : string,
    fst (to_string (snd (set 5 true (construct 8)))) = Done r /\
    fst (count (snd (set 5 true (construct 8)))) = Done (Z.of_nat (ones r)).
Proof.
  apply (count_is_ones_of_to_string (snd (set 5 true (construct 8)))).
  - apply set_covered, construct_covered. right. reflexivity.
  - reflexivity.
Defined.


(** X19.  A clean object from any state: [resize(nbits)] followed by
    [reset()] leaves exactly the object that [dynamic_bitset(nbits)]
    builds, whatever the object held before, the default-constructed
    object included. *)
Theorem resize_reset_is_construct (s : dynamic_bitset) (nbits : N) :
  (resize nbits ;; reset) s = (Done tt, construct nbits).
Proof.
  unfold bind. rewrite resize_unfold, reset_unfold, construct_unfold.
  cbn [_num_bits _data]. by rewrite length_resize.
Qed.


End DynamicBitset.
